(** * signer: sealed tokens over an AEAD cipher

    A shallow embedding of [signer.go].  The package wraps an AEAD cipher
    (XChaCha20-Poly1305 of golang.org/x/crypto) and the system random
    source; both live outside the package and enter the model as an
    environment with a stated contract.  Everything the package itself does
    (header assembly in the scratch buffer, slicing of the token, the
    length guard, the propagation of errors) is modelled as written. *)

From Stdlib Require Import List Arith Lia Bool.
From Stdlib.Strings Require Import Byte.
Import ListNotations.

(** ** Go values *)

Definition bytes := list byte.

(** Go [error] values that can reach a caller of this package.  The first
    two are the package's own variables; the others are created by the
    libraries it calls. *)
Inductive error : Type :=
| ErrKeyLen                 (* signer.ErrKeyLen: "bad key length" *)
| ErrShort                  (* signer.ErrShort: "message too short" *)
| errBadKeyLength           (* chacha20poly1305.NewX: "bad key length" *)
| errOpen                   (* chacha20poly1305: "message authentication failed" *)
| errRand (errno : nat).    (* crypto/rand: the read from the OS failed *)

(** A Go pair [(v, err)] in which exactly one side is meaningful. *)
Inductive result (A : Type) : Type :=
| Ok (v : A)
| Err (e : error).
Arguments Ok {A} v.
Arguments Err {A} e.

(** A call either returns or panics. *)
Inductive outcome (A : Type) : Type :=
| Done (a : A)
| Panic.
Arguments Done {A} a.
Arguments Panic {A}.

(** ** The external collaborators *)

(** The two methods of [cipher.AEAD] the package calls, always with a nil
    [dst]: [Seal nonce plaintext additionalData] and
    [Open nonce ciphertext additionalData]. *)
Record AEAD : Type := {
  Seal : bytes -> bytes -> bytes -> outcome bytes;
  Open : bytes -> bytes -> bytes -> outcome (result bytes)
}.

(** [NewX] is [chacha20poly1305.NewX]; [rand_Read i k] is the outcome of the
    [i]-th call of [rand.Read] on a buffer of [k] bytes: the buffer after the
    call and the error, if any.  (From Go 1.24 on [rand.Read] returns no
    error and ends the process when the system source fails; a read that
    does not return is not modelled.) *)
Record Env : Type := {
  NewX : bytes -> result AEAD;
  rand_Read : nat -> nat -> bytes * option error
}.

(** ** Constants of the package *)

Definition Version : byte := Byte.x41.
Definition KeySize : nat := 32.          (* chacha20poly1305.KeySize *)
Definition NonceSize : nat := 24.        (* chacha20poly1305.NonceSizeX *)
Definition Overhead : nat := 16.         (* chacha20poly1305.Overhead *)
Definition hdrSize : nat := 1 + NonceSize.

(** Modelled from the spec: the declaration of [Token] is not in
    [signer.go]; the spec describes it as an opaque byte sequence. *)
Definition Token := bytes.

(** ** The Signer *)

(** [n] is a Go [int]; it starts at 0 and only ever grows by the result of
    [copy], so a natural number holds it.  [p] is the [[hdrSize]byte]
    array. *)
Record Signer : Type := {
  aead : AEAD;
  n : nat;
  p : bytes
}.

(** The builtin [copy(dst, src)]: overwrites the first
    [min (len dst) (len src)] bytes of [dst], and returns how many. *)
Definition copy (dst src : bytes) : bytes * nat :=
  let k := Nat.min (length dst) (length src) in
  (firstn k src ++ skipn k dst, k).

(** [put], with a pointer receiver: a transformer of the Signer the
    pointer refers to.  [s.p[s.n:]] panics when [s.n] is past the array. *)
Definition put (q : bytes) (s : Signer) : outcome Signer :=
  if s.(n) <=? length s.(p) then
    let '(tl, k) := copy (skipn s.(n) s.(p)) q in
    Done {| aead := s.(aead); n := s.(n) + k; p := firstn s.(n) s.(p) ++ tl |}
  else Panic.

(** ** Calls, as seen from outside *)

(** What a call of a method leaves behind: the Signer behind the receiver
    pointer, the number of reads made from the random source, and the calls
    made to the cipher and the random source, oldest first. *)
Inductive Call : Type :=
| CallRand (k : nat)
| CallSeal (nonce msg ad : bytes)
| CallOpen (nonce ct ad : bytes).

Record State : Type := {
  this : Signer;
  reads : nat;
  trace : list Call
}.

Definition M (A : Type) : Type := State -> outcome A * State.

Definition ret {A} (a : A) : M A := fun st => (Done a, st).

Definition bind {A B} (m : M A) (k : A -> M B) : M B :=
  fun st =>
    match m st with
    | (Done a, st') => k a st'
    | (Panic, st') => (Panic, st')
    end.

Notation "x <- m ;; k" := (bind m (fun x => k))
  (at level 61, m at next level, right associativity).

Definition lift {A} (o : outcome A) : M A := fun st => (o, st).

(** Reading the Signer behind the receiver pointer. *)
Definition deref : M Signer := fun st => (Done st.(this), st).

Definition log (c : Call) (st : State) : State :=
  {| this := st.(this); reads := st.(reads); trace := st.(trace) ++ [c] |}.

Definition call_Seal (a : AEAD) (nonce msg ad : bytes) : M bytes :=
  fun st => (a.(Seal) nonce msg ad, log (CallSeal nonce msg ad) st).

Definition call_Open (a : AEAD) (nonce ct ad : bytes) : M (result bytes) :=
  fun st => (a.(Open) nonce ct ad, log (CallOpen nonce ct ad) st).

Definition call_rand (E : Env) (k : nat) : M (bytes * option error) :=
  fun st =>
    (Done (E.(rand_Read) st.(reads) k),
     {| this := st.(this); reads := S st.(reads);
        trace := st.(trace) ++ [CallRand k] |}).

(** ** The package's functions *)

(** [func New(key []byte)], returning a pointer to a new Signer or an
    error; the fields [n] and [p] of the composite literal take their zero
    values. *)
Definition New (E : Env) (key : bytes) : result Signer :=
  match E.(NewX) key with
  | Err e => Err e
  | Ok a => Ok {| aead := a; n := 0; p := repeat Byte.x00 hdrSize |}
  end.

(** [func mknonce() ([]byte, error)] *)
Definition mknonce (E : Env) : M (bytes * option error) :=
  call_rand E NonceSize.

(** The header assembly of [sign]: the two [put]s on the receiver of
    [sign], which is a copy of the caller's Signer. *)
Definition assemble (s : Signer) (nonce : bytes) : outcome Signer :=
  match put [Version] s with
  | Done s1 => put nonce s1
  | Panic => Panic
  end.

(** [func (s Signer) sign(msg []byte, nonce []byte) []byte]: a value
    receiver, so [s] is the callee's own copy. *)
Definition sign (s : Signer) (msg nonce : bytes) : M bytes :=
  s' <- lift (assemble s nonce) ;;
  let hdr := firstn s'.(n) s'.(p) in
  sealed <- call_Seal s'.(aead) nonce msg hdr ;;
  ret (hdr ++ sealed).

(** [Sign(msg, nonce)], with a pointer receiver, returning a Token or an
    error; a nil [nonce] is [None]. *)
Definition Sign (E : Env) (msg : bytes) (nonce : option bytes)
  : M (result Token) :=
  match nonce with
  | None =>
      r <- mknonce E ;;
      match r with
      | (_, Some err) => ret (Err err)
      | (nonce', None) =>
          s <- deref ;; t <- sign s msg nonce' ;; ret (Ok t)
      end
  | Some nonce' =>
      s <- deref ;; t <- sign s msg nonce' ;; ret (Ok t)
  end.

(** [Verify(c)], with a pointer receiver, returning the message or an
    error. *)
Definition Verify (c : Token) : M (result bytes) :=
  if length c <? hdrSize then ret (Err ErrShort)
  else
    let k := hdrSize in
    let ae := skipn k c in
    let ad := firstn k c in
    let nonce := skipn 1 ad in
    s <- deref ;;
    call_Open s.(aead) nonce ae ad.

(** A Signer just returned by [New], before any call. *)
Definition fresh (s : Signer) : State :=
  {| this := s; reads := 0; trace := [] |}.

(** The scratch fields as [New] leaves them. *)
Definition ready (s : Signer) : Prop :=
  s.(n) = 0 /\ length s.(p) = hdrSize.

(** ** Counting keys and tags *)

(** Every byte, once. *)
Definition all_bytes : list byte :=
  flat_map (fun i => match Byte.of_nat i with Some b => [b] | None => [] end)
           (seq 0 256).

(** Every byte string of [k] bytes, once. *)
Fixpoint strings_of (k : nat) : list bytes :=
  match k with
  | 0 => [[]]
  | S k' => flat_map (fun b => map (cons b) (strings_of k')) all_bytes
  end.

(** What [sign] appends to the header for the empty message: the bare tag
    under [key]. *)
Definition empty_sealed (E : Env) (nonce key : bytes) : bytes :=
  match New E key with
  | Ok s =>
      match s.(aead).(Seal) nonce [] (Version :: nonce) with
      | Done c => c
      | Panic => []
      end
  | Err _ => []
  end.


(** ** The contract of the collaborators *)

(** What the package relies on from an XChaCha20-Poly1305 instance, as the
    spec states it for the AEAD collaborator: with a nonce of [NonceSize]
    bytes [Seal] returns the ciphertext followed by a tag of [Overhead]
    bytes, [Open] gives the plaintext back from what [Seal] returned under
    the same nonce and additional data, and [Open] fails only with its
    authentication error, which it does on any input too short to hold a
    tag.  Both panic on a nonce of another size, which the contract leaves
    open.  Like the spec, the contract abstracts from the library's limit
    on the size of a plaintext (2^38 - 64 bytes). *)
Record AEAD_ok (a : AEAD) : Prop := {
  seal_returns : forall nonce m ad,
    length nonce = NonceSize ->
    exists c, a.(Seal) nonce m ad = Done c /\ length c = length m + Overhead;
  open_seal : forall nonce m ad c,
    length nonce = NonceSize ->
    a.(Seal) nonce m ad = Done c -> a.(Open) nonce c ad = Done (Ok m);
  open_returns : forall nonce c ad,
    length nonce = NonceSize -> exists r, a.(Open) nonce c ad = Done r;
  open_error : forall nonce c ad e,
    a.(Open) nonce c ad = Done (Err e) -> e = errOpen;
  open_short : forall nonce c ad,
    length nonce = NonceSize -> length c < Overhead ->
    a.(Open) nonce c ad = Done (Err errOpen)
}.

(** [NewX] accepts exactly the keys of [KeySize] bytes. *)
Record Env_ok (E : Env) : Prop := {
  NewX_key : forall key,
    length key = KeySize -> exists a, E.(NewX) key = Ok a /\ AEAD_ok a;
  NewX_bad : forall key,
    length key <> KeySize -> E.(NewX) key = Err errBadKeyLength
}.


(** ** Tampering with a token *)

(** The byte of value [k mod 256]. *)
Definition byte_of_nat (k : nat) : byte :=
  match Byte.of_nat (k mod 256) with
  | Some b => b
  | None => Byte.x00
  end.

(** [b] with its bit [j] inverted, bit 0 being the lowest. *)
Definition flip_byte (j : nat) (b : byte) : byte :=
  byte_of_nat (Nat.lxor (Byte.to_nat b) (2 ^ j)).

(** [t] with one bit inverted: bit [i mod 8] of the byte at offset
    [i / 8]. *)
Fixpoint flip_bit (i : nat) (t : bytes) : bytes :=
  match t with
  | [] => []
  | b :: t' =>
      if i <? 8 then flip_byte i b :: t' else b :: flip_bit (i - 8) t'
  end.

(** What [Verify] passes to [Open] for a token [c] that is long enough:
    nonce, ciphertext and additional data. *)
Definition open_input (c : Token) : bytes * bytes * bytes :=
  (skipn 1 (firstn hdrSize c), skipn hdrSize c, firstn hdrSize c).

(** The rejection of every token with one bit inverted, as a property of an
    environment. *)
Definition tamper_detected (E : Env) : Prop :=
  forall (key msg nonce : bytes) (s : Signer) (st st' : State)
         (t : Token) (i : nat),
    length key = 32 -> length nonce = 24 ->
    New E key = Ok s -> this st = s -> this st' = s ->
    fst (Sign E msg (Some nonce) st) = Done (Ok t) ->
    i < 8 * length t ->
    fst (Verify (flip_bit i t) st') = Done (Err errOpen).

(** ** Deterministic fakes of the collaborators

    A fake cipher leaves the plaintext as it is and appends a 16-byte tag
    computed from key, nonce, additional data and plaintext; the random
    source always succeeds with zero bytes.  Two tags are given: a byte sum
    and a bit parity.  Both fakes meet the contract and can be run. *)
Module Fake.

Definition tagger : Type := bytes -> bytes -> bytes -> bytes -> byte.

Definition tag (f : tagger) (key nonce ad m : bytes) : bytes :=
  repeat (f key nonce ad m) Overhead.

Definition seal (f : tagger) (key nonce m ad : bytes) : outcome bytes :=
  if length nonce =? NonceSize then Done (m ++ tag f key nonce ad m)
  else Panic.

Definition open (f : tagger) (key nonce c ad : bytes)
  : outcome (result bytes) :=
  if length nonce =? NonceSize then
    if length c <? Overhead then Done (Err errOpen)
    else
      let m := firstn (length c - Overhead) c in
      let t := skipn (length c - Overhead) c in
      if list_eq_dec Byte.byte_eq_dec t (tag f key nonce ad m)
      then Done (Ok m) else Done (Err errOpen)
  else Panic.

Definition cipher_of (f : tagger) (key : bytes) : AEAD :=
  {| Seal := seal f key; Open := open f key |}.

Definition env_of (f : tagger) : Env :=
  {| NewX := fun key =>
       if length key =? KeySize then Ok (cipher_of f key)
       else Err errBadKeyLength;
     rand_Read := fun _ k => (repeat Byte.x00 k, None) |}.

(** The sum of all bytes, modulo 256. *)
Definition sum (l : bytes) : nat :=
  fold_right (fun b acc => Byte.to_nat b + acc) 0 l.

Definition sum_tagger : tagger :=
  fun key nonce ad m => byte_of_nat (sum (key ++ nonce ++ ad ++ m)).

(** The parity of the number of bits set. *)
Definition byte_parity (b : byte) : bool :=
  fold_right xorb false (map (Nat.testbit (Byte.to_nat b)) (seq 0 8)).

Definition parity (l : bytes) : bool :=
  fold_right (fun b acc => xorb (byte_parity b) acc) false l.

Definition parity_tagger : tagger :=
  fun key _ ad m =>
    if xorb (parity key) (parity (ad ++ m)) then Byte.x01 else Byte.x00.

Definition cipher : bytes -> AEAD := cipher_of sum_tagger.
Definition env : Env := env_of sum_tagger.
Definition parity_env : Env := env_of parity_tagger.

End Fake.

(** ** Concrete inputs *)

Definition key0 : bytes := repeat Byte.x00 32.
Definition nonce0 : bytes := repeat Byte.x00 24.
Definition hello : bytes := [Byte.x68; Byte.x65; Byte.x6c; Byte.x6c; Byte.x6f].

(** What [New] returns for [key0] with the fake cipher. *)
Definition signer0 : Signer :=
  {| aead := Fake.cipher key0; n := 0; p := repeat Byte.x00 hdrSize |}.


(** Bytes 0 to 29 of some input: a header and five more bytes. *)
Definition thirty : bytes := Version :: nonce0 ++ hello.

(** ** The random source, and calls in sequence *)

(** [rand.Read] writes into the buffer it is given, so the buffer comes
    back with the length it had. *)
Definition Rand_ok (E : Env) : Prop :=
  forall i k, length (fst (E.(rand_Read) i k)) = k.

(** A call of one of the two exported methods on the same Signer. *)
Inductive Op : Type :=
| OpSign (msg : bytes) (nonce : option bytes)
| OpVerify (c : Token).

(** The state a call leaves, whatever it returned. *)
Definition exec (E : Env) (o : Op) (st : State) : State :=
  match o with
  | OpSign msg nonce => snd (Sign E msg nonce st)
  | OpVerify c => snd (Verify c st)
  end.

(** Calls made one after the other. *)
Definition run (E : Env) (ops : list Op) (st : State) : State :=
  fold_left (fun st' o => exec E o st') ops st.

(** How many of the calls are [Sign] with a nil nonce. *)
Definition nil_signs (ops : list Op) : nat :=
  length (filter (fun o => match o with
                           | OpSign _ None => true
                           | _ => false
                           end) ops).

(** ** More fakes and inputs *)

(** The fake cipher with a random source whose [i]-th read gives bytes of
    value [i]. *)
Definition counting_env : Env :=
  {| NewX := Fake.env.(NewX);
     rand_Read := fun i k => (repeat (byte_of_nat i) k, None) |}.

Definition nonce30 : bytes := repeat Byte.x02 30.
Definition nonce1 : bytes := repeat Byte.x01 24.

(** * Properties *)

(** ** The fakes meet the contract *)

Lemma fake_tag_length f key nonce ad m :
  length (Fake.tag f key nonce ad m) = Overhead.
Proof. unfold Fake.tag. apply repeat_length. Qed.

Lemma fake_cipher_of_ok f key : AEAD_ok (Fake.cipher_of f key).
Proof.
  constructor; simpl; unfold Fake.seal, Fake.open.
  - intros nonce m ad Hn. rewrite Hn, Nat.eqb_refl.
    eexists; split; [reflexivity|].
    rewrite length_app, fake_tag_length. reflexivity.
  - intros nonce m ad c Hn. rewrite Hn, Nat.eqb_refl.
    intros [= <-].
    assert (Hl : length (m ++ Fake.tag f key nonce ad m) - Overhead
                 = length m).
    { rewrite length_app, fake_tag_length. lia. }
    rewrite Hl.
    destruct (Nat.ltb_spec (length (m ++ Fake.tag f key nonce ad m)) Overhead)
      as [Hlt|_].
    { rewrite length_app, fake_tag_length in Hlt. lia. }
    rewrite firstn_app, Nat.sub_diag, firstn_all, firstn_O, app_nil_r.
    rewrite skipn_app, Nat.sub_diag, skipn_all, skipn_O, app_nil_l.
    destruct (list_eq_dec _ _ _) as [_|Hne]; [reflexivity|].
    now elim Hne.
  - intros nonce c ad Hn. rewrite Hn, Nat.eqb_refl.
    destruct (_ <? _); [eauto|].
    destruct (list_eq_dec _ _ _); eauto.
  - intros nonce c ad e.
    destruct (_ =? _); [|discriminate].
    destruct (_ <? _); [now intros [= <-]|].
    destruct (list_eq_dec _ _ _); [discriminate|now intros [= <-]].
  - intros nonce c ad Hn Hc. rewrite Hn, Nat.eqb_refl.
    apply Nat.ltb_lt in Hc. now rewrite Hc.
Qed.

Lemma fake_env_of_ok f : Env_ok (Fake.env_of f).
Proof.
  constructor; simpl; intros key Hk.
  - rewrite Hk, Nat.eqb_refl. eexists; split; [reflexivity|].
    apply fake_cipher_of_ok.
  - apply Nat.eqb_neq in Hk. now rewrite Hk.
Qed.

Lemma fake_cipher_ok key : AEAD_ok (Fake.cipher key).
Proof. apply fake_cipher_of_ok. Qed.

Lemma fake_env_ok : Env_ok Fake.env.
Proof. apply fake_env_of_ok. Qed.

(** ** Construction *)

Lemma New_Ok E key s :
  New E key = Ok s ->
  exists a, E.(NewX) key = Ok a /\
            s = {| aead := a; n := 0; p := repeat Byte.x00 hdrSize |}.
Proof.
  unfold New. destruct (NewX E key) as [a|e]; [|discriminate].
  intros [= <-]. now exists a.
Qed.

Lemma New_ready E key s : New E key = Ok s -> ready s.
Proof.
  intros H. apply New_Ok in H as (a & _ & ->). split; reflexivity.
Qed.

Lemma New_cipher_ok E key s :
  Env_ok E -> length key = KeySize -> New E key = Ok s -> AEAD_ok s.(aead).
Proof.
  intros HE Hk H. apply New_Ok in H as (a & Ha & ->). simpl.
  destruct (NewX_key E HE key Hk) as (a' & Ha' & Hok). congruence.
Qed.

Lemma New_key E key :
  Env_ok E -> length key = KeySize -> exists s, New E key = Ok s.
Proof.
  intros HE Hk. destruct (NewX_key E HE key Hk) as (a & Ha & _).
  unfold New. rewrite Ha. eauto.
Qed.

(** ** Header assembly *)

Lemma put_ready q s :
  s.(n) <= length s.(p) ->
  put q s =
  Done {| aead := s.(aead);
          n := s.(n) + Nat.min (length s.(p) - s.(n)) (length q);
          p := firstn s.(n) s.(p)
               ++ firstn (Nat.min (length s.(p) - s.(n)) (length q)) q
               ++ skipn (Nat.min (length s.(p) - s.(n)) (length q))
                    (skipn s.(n) s.(p)) |}.
Proof.
  intros H. unfold put, copy. apply Nat.leb_le in H. rewrite H.
  now rewrite length_skipn.
Qed.

Lemma assemble_header s nonce :
  ready s -> length nonce = NonceSize ->
  assemble s nonce =
  Done {| aead := s.(aead); n := hdrSize; p := Version :: nonce |}.
Proof.
  intros [Hn Hp] Hl. destruct s as [a k q]; simpl in *. subst k.
  destruct q as [|b q]; [discriminate|].
  injection Hp as Hq.
  unfold assemble. rewrite put_ready by (simpl; lia). simpl.
  rewrite put_ready by (simpl; lia). simpl.
  rewrite Nat.min_0_r. cbn [firstn skipn app Nat.add].
  rewrite Nat.sub_0_r, Hq, Hl, Nat.min_id.
  rewrite <- Hl at 2. rewrite firstn_all.
  rewrite skipn_all2 by lia. now rewrite app_nil_r.
Qed.

(** The token [sign] builds from a Signer in the state [New] leaves it. *)
Lemma sign_ready s msg nonce st :
  ready s -> length nonce = NonceSize ->
  sign s msg nonce st =
  (match s.(aead).(Seal) nonce msg (Version :: nonce) with
   | Done sealed => Done ((Version :: nonce) ++ sealed)
   | Panic => Panic
   end,
   log (CallSeal nonce msg (Version :: nonce)) st).
Proof.
  intros Hs Hl. unfold sign, bind, lift, call_Seal, ret.
  rewrite (assemble_header s nonce Hs Hl). cbn [aead n p].
  replace (firstn hdrSize (Version :: nonce)) with (Version :: nonce).
  2:{ symmetry. apply firstn_all2. simpl. unfold hdrSize. lia. }
  now destruct (Seal _ _ _ _).
Qed.

Lemma Sign_ready E msg nonce st :
  ready st.(this) -> length nonce = NonceSize ->
  Sign E msg (Some nonce) st =
  (match st.(this).(aead).(Seal) nonce msg (Version :: nonce) with
   | Done sealed => Done (Ok ((Version :: nonce) ++ sealed))
   | Panic => Panic
   end,
   log (CallSeal nonce msg (Version :: nonce)) st).
Proof.
  intros Hs Hl. unfold Sign, bind, deref, ret.
  rewrite (sign_ready _ msg nonce st Hs Hl).
  now destruct (Seal _ _ _ _).
Qed.

(** ** The two branches of [Verify] *)

Lemma Verify_short c st :
  length c < hdrSize -> Verify c st = (Done (Err ErrShort), st).
Proof.
  intros H. unfold Verify. apply Nat.ltb_lt in H. now rewrite H.
Qed.

Lemma Verify_long c st :
  hdrSize <= length c ->
  Verify c st =
  (st.(this).(aead).(Open)
     (skipn 1 (firstn hdrSize c)) (skipn hdrSize c) (firstn hdrSize c),
   log (CallOpen (skipn 1 (firstn hdrSize c)) (skipn hdrSize c)
          (firstn hdrSize c)) st).
Proof.
  intros H. unfold Verify. apply Nat.ltb_ge in H. now rewrite H.
Qed.

Lemma Verify_nonce_size (c : bytes) :
  hdrSize <= length c -> length (skipn 1 (firstn hdrSize c)) = NonceSize.
Proof.
  intros H. rewrite length_skipn, length_firstn. unfold hdrSize in *. lia.
Qed.

(** [Verify] on 25 bytes followed by anything. *)
Lemma Verify_split (ad ae : bytes) (st : State) :
  length ad = hdrSize ->
  Verify (ad ++ ae) st =
  (Open (aead (this st)) (skipn 1 ad) ae ad,
   log (CallOpen (skipn 1 ad) ae ad) st).
Proof.
  intros Hl.
  assert (Hf : firstn hdrSize (ad ++ ae) = ad).
  { rewrite <- Hl.
    now rewrite firstn_app, Nat.sub_diag, firstn_all, firstn_O, app_nil_r. }
  assert (Hk : skipn hdrSize (ad ++ ae) = ae).
  { rewrite <- Hl.
    now rewrite skipn_app, Nat.sub_diag, skipn_all, skipn_O, app_nil_l. }
  rewrite Verify_long.
  - now rewrite Hf, Hk.
  - rewrite length_app. lia.
Qed.

(** [Verify] on a header followed by sealed bytes. *)
Lemma Verify_token nonce sealed st :
  length nonce = NonceSize ->
  Verify ((Version :: nonce) ++ sealed) st =
  (st.(this).(aead).(Open) nonce sealed (Version :: nonce),
   log (CallOpen nonce sealed (Version :: nonce)) st).
Proof.
  intros Hl. apply (Verify_split (Version :: nonce) sealed st).
  simpl. now rewrite Hl.
Qed.

(** ** Frame: what a call leaves of the state *)

Lemma sign_this s msg nonce st :
  this (snd (sign s msg nonce st)) = this st.
Proof.
  unfold sign, bind, lift, call_Seal, ret.
  destruct (assemble s nonce) as [s'|]; [|reflexivity].
  now destruct (Seal _ _ _ _).
Qed.

Lemma Sign_this E msg nonce st :
  this (snd (Sign E msg nonce st)) = this st.
Proof.
  destruct nonce as [nonce|]; unfold Sign, bind, deref, mknonce, call_rand, ret.
  - pose proof (sign_this (this st) msg nonce st) as H.
    destruct (sign _ _ _ _) as [[t|] st']; exact H.
  - destruct (rand_Read E (reads st) NonceSize) as [q [err|]];
      [reflexivity|].
    cbn [this].
    match goal with
    | |- context [sign ?s0 msg q ?st0] =>
        pose proof (sign_this s0 msg q st0) as H;
        destruct (sign s0 msg q st0) as [[t|] st']
    end; exact H.
Qed.

Lemma Verify_this c st : this (snd (Verify c st)) = this st.
Proof.
  unfold Verify, bind, deref, call_Open, ret.
  now destruct (_ <? _).
Qed.

(** ** Claims about a lawful environment *)

Section Lawful.

Context (E : Env) (HE : Env_ok E).

(** C5: on a key whose length is not 32 [New] fails, but with the error of
    the cipher's constructor, handed on as it came: the package's own
    [ErrKeyLen] is never returned, for any key.  Any failure of [New] is of
    that kind, and a key of 32 bytes gives a Signer. *)
Theorem New_bad_key_error (key : bytes) :
  (length key <> 32 ->
   New E key = Err errBadKeyLength /\ New E key <> Err ErrKeyLen) /\
  New E key <> Err ErrKeyLen /\
  (forall e, New E key = Err e -> e = errBadKeyLength /\ length key <> 32) /\
  (length key = 32 -> exists s, New E key = Ok s).
Proof.
  assert (Hbad : length key <> 32 -> New E key = Err errBadKeyLength).
  { intros Hk. unfold New. now rewrite (NewX_bad E HE key Hk). }
  assert (Hnever : New E key <> Err ErrKeyLen).
  { destruct (Nat.eq_dec (length key) 32) as [Hk|Hk].
    - destruct (New_key E key HE Hk) as [s Hs]. rewrite Hs. discriminate.
    - rewrite (Hbad Hk). discriminate. }
  split; [|split; [exact Hnever|split]].
  - intros Hk. split; [exact (Hbad Hk)|exact Hnever].
  - intros e He. destruct (Nat.eq_dec (length key) 32) as [Hk|Hk].
    + destruct (New_key E key HE Hk) as [s Hs]. congruence.
    + rewrite (Hbad Hk) in He. split; [congruence|exact Hk].
  - apply New_key, HE.
Qed.

Section Keyed.

Context (key : bytes) (Hkey : length key = 32).
Context (msg nonce : bytes) (Hnonce : length nonce = 24).

(** C1: Round trip: on a Signer built by [New] from a 32-byte key,
    [Sign] with a 24-byte nonce returns a token for every message, the
    empty one included, and [Verify] on that token returns exactly the
    message, right after the call or at any later state of the
    Signer. *)
Theorem round_trip :
  exists s, New E key = Ok s /\
  forall st, this st = s ->
  exists t st',
    Sign E msg (Some nonce) st = (Done (Ok t), st') /\
    fst (Verify t st') = Done (Ok msg) /\
    forall st'', this st'' = s -> fst (Verify t st'') = Done (Ok msg).
Proof.
  destruct (New_key E key HE Hkey) as [s Hs]. exists s. split; [exact Hs|].
  intros st Hst.
  pose proof (New_cipher_ok E key s HE Hkey Hs) as Hok.
  pose proof (New_ready E key s Hs) as Hr.
  destruct (seal_returns _ Hok nonce msg (Version :: nonce) Hnonce)
    as (sealed & Hseal & _).
  assert (Hv : forall st'', this st'' = s ->
            fst (Verify ((Version :: nonce) ++ sealed) st'')
            = Done (Ok msg)).
  { intros st'' H''. rewrite (Verify_token nonce sealed st'' Hnonce).
    cbn [fst]. rewrite H''.
    exact (open_seal _ Hok nonce msg _ sealed Hnonce Hseal). }
  exists ((Version :: nonce) ++ sealed),
         (log (CallSeal nonce msg (Version :: nonce)) st).
  split; [|split].
  - rewrite Sign_ready by (rewrite ?Hst; assumption).
    rewrite Hst, Hseal. reflexivity.
  - apply Hv. exact Hst.
  - exact Hv.
Qed.

Context (s : Signer) (HNew : New E key = Ok s).
Context (st : State) (Hst : this st = s).

Lemma Sign_keyed :
  exists sealed,
    Seal (aead s) nonce msg (Version :: nonce) = Done sealed /\
    length sealed = length msg + 16 /\
    Sign E msg (Some nonce) st =
    (Done (Ok ((Version :: nonce) ++ sealed)),
     log (CallSeal nonce msg (Version :: nonce)) st).
Proof.
  pose proof (New_cipher_ok E key s HE Hkey HNew) as Hok.
  pose proof (New_ready E key s HNew) as Hr.
  destruct (seal_returns _ Hok nonce msg (Version :: nonce) Hnonce)
    as (sealed & Hseal & Hlen).
  exists sealed. split; [exact Hseal|]. split; [exact Hlen|].
  rewrite Sign_ready by (rewrite ?Hst; assumption).
  now rewrite Hst, Hseal.
Qed.

(** C3: Wire format: the token [Sign] returns for a message and a
    24-byte nonce is 25 + len(message) + 16 bytes long, starts with the
    version byte 'A', and carries the nonce at offsets 1 to 24. *)
Theorem wire_format :
  exists t,
    fst (Sign E msg (Some nonce) st) = Done (Ok t) /\
    length t = 25 + length msg + 16 /\
    nth_error t 0 = Some Byte.x41 /\
    firstn 24 (skipn 1 t) = nonce.
Proof.
  destruct Sign_keyed as (sealed & _ & Hlen & HS).
  exists ((Version :: nonce) ++ sealed). rewrite HS.
  split; [reflexivity|]. split; [|split].
  - rewrite length_app. simpl. lia.
  - reflexivity.
  - cbn [app skipn]. rewrite <- Hnonce.
    now rewrite firstn_app, Nat.sub_diag, firstn_all, firstn_O, app_nil_r.
Qed.

(** C4: Determinism under an explicit nonce: with key, nonce and
    message fixed, [Sign] returns the same token whatever the state of
    the random source and the history of calls, in particular when it is
    called a second time right after the first call. *)
Theorem explicit_nonce_deterministic (st2 : State) :
  this st2 = s ->
  exists t,
    fst (Sign E msg (Some nonce) st) = Done (Ok t) /\
    fst (Sign E msg (Some nonce) st2) = Done (Ok t) /\
    fst (Sign E msg (Some nonce) (snd (Sign E msg (Some nonce) st)))
    = Done (Ok t).
Proof.
  intros H2.
  pose proof (New_cipher_ok E key s HE Hkey HNew) as Hok.
  pose proof (New_ready E key s HNew) as Hr.
  destruct (seal_returns _ Hok nonce msg (Version :: nonce) Hnonce)
    as (sealed & Hseal & _).
  assert (HS : forall st0, this st0 = s ->
            fst (Sign E msg (Some nonce) st0)
            = Done (Ok ((Version :: nonce) ++ sealed))).
  { intros st0 H0. rewrite Sign_ready by (rewrite ?H0; assumption).
    now rewrite H0, Hseal. }
  exists ((Version :: nonce) ++ sealed).
  split; [|split]; apply HS; trivial.
  now rewrite Sign_this.
Qed.

(** C9: With a 24-byte nonce supplied, [Sign] returns a token and a nil
    error for every message, and reads nothing from the random source;
    whenever [Sign] does return an error, the nonce was nil and the error
    is the one the random source gave for the nonce. *)
Theorem Sign_with_nonce_succeeds :
  (exists t, fst (Sign E msg (Some nonce) st) = Done (Ok t)) /\
  reads (snd (Sign E msg (Some nonce) st)) = reads st /\
  trace (snd (Sign E msg (Some nonce) st))
  = trace st ++ [CallSeal nonce msg (Version :: nonce)] /\
  (forall msg' nonce' st' e,
      fst (Sign E msg' nonce' st') = Done (Err e) ->
      nonce' = None /\
      snd (rand_Read E (reads st') NonceSize) = Some e).
Proof.
  destruct Sign_keyed as (sealed & _ & _ & HS). rewrite HS.
  split; [eexists; reflexivity|]. split; [reflexivity|]. split; [reflexivity|].
  intros msg' nonce' st' e.
  destruct nonce' as [q|];
    unfold Sign, bind, deref, mknonce, call_rand, ret.
  - destruct (sign _ _ _ _) as [[t|] st'']; discriminate.
  - destruct (rand_Read E (reads st') NonceSize) as [q [err|]].
    + cbn. intros [= ->]. now split.
    + destruct (sign _ _ _ _) as [[t|] st'']; discriminate.
Qed.

End Keyed.

End Lawful.

(** ** Claims about [Verify]'s length guard *)

(** C6: Short input rejection: [Verify] fails with [ErrShort] exactly on
    the inputs shorter than 25 bytes, and on those it returns with the state
    untouched: no call to the cipher is made. *)
Theorem short_input_rejection (c : Token) (st : State) :
  AEAD_ok (aead (this st)) ->
  (fst (Verify c st) = Done (Err ErrShort) <-> length c < 25) /\
  (length c < 25 -> Verify c st = (Done (Err ErrShort), st)).
Proof.
  intros Hok. split; [split|].
  - intros H. destruct (Nat.lt_ge_cases (length c) 25) as [Hlt|Hge]; trivial.
    rewrite (Verify_long c st Hge) in H. cbn [fst] in H.
    apply (open_error _ Hok) in H. discriminate.
  - intros H. now rewrite (Verify_short c st H).
  - apply Verify_short.
Qed.

(** C10: An input of at least 25 and fewer than 41 bytes passes the length
    guard: [Verify] hands bytes 1 to 24 as nonce, the remaining fewer than
    16 bytes as ciphertext and the first 25 bytes as additional data to the
    cipher's [Open], and fails with the cipher's authentication error, not
    with [ErrShort]. *)
Theorem header_without_tag (c : Token) (st : State) :
  AEAD_ok (aead (this st)) ->
  25 <= length c < 41 ->
  fst (Verify c st) = Done (Err errOpen) /\
  fst (Verify c st) <> Done (Err ErrShort) /\
  trace (snd (Verify c st))
  = trace st ++ [CallOpen (skipn 1 (firstn 25 c)) (skipn 25 c) (firstn 25 c)].
Proof.
  intros Hok [Hlo Hhi].
  assert (H : fst (Verify c st) = Done (Err errOpen)).
  { rewrite (Verify_long c st Hlo). cbn [fst].
    apply (open_short _ Hok).
    - now apply Verify_nonce_size.
    - rewrite length_skipn. unfold hdrSize, NonceSize, Overhead. lia. }
  split; [exact H|]. split.
  - rewrite H. discriminate.
  - now rewrite (Verify_long c st Hlo).
Qed.

(** ** Claim about the Signer behind the pointer *)

(** C8: Frame: a call of [Sign] and a call of [Verify] leave the Signer
    behind the receiver (cipher, [n] and [p]) exactly as it was; the header
    is assembled in the copy [sign] receives, whose [n] and [p] do change
    while the caller's stay as [New] left them. *)
Theorem signer_frame (E : Env) (msg : bytes) (nonce : option bytes)
    (c : Token) (st : State) :
  this (snd (Sign E msg nonce st)) = this st /\
  this (snd (Verify c st)) = this st /\
  (forall q, ready (this st) -> length q = 24 ->
     exists s', assemble (this st) q = Done s' /\
       aead s' = aead (this st) /\ n s' = 25 /\ p s' = Version :: q /\
       n (this (snd (Sign E msg (Some q) st))) = 0 /\
       p (this (snd (Sign E msg (Some q) st))) = p (this st)).
Proof.
  split; [apply Sign_this|]. split; [apply Verify_this|].
  intros q Hr Hq. eexists. split; [apply (assemble_header _ _ Hr Hq)|].
  cbn [aead n p]. rewrite Sign_this. destruct Hr as [Hn _].
  now repeat split.
Qed.

(** ** Counting: more keys than tags *)

Lemma all_bytes_complete (b : byte) : In b all_bytes.
Proof.
  unfold all_bytes. apply in_flat_map. exists (Byte.to_nat b). split.
  - apply in_seq. pose proof (Byte.to_nat_bounded b). lia.
  - rewrite Byte.of_to_nat. now left.
Qed.

Lemma all_bytes_NoDup : NoDup all_bytes.
Proof.
  apply (NoDup_map_inv Byte.to_nat).
  replace (map Byte.to_nat all_bytes) with (seq 0 256) by (vm_compute; reflexivity).
  apply seq_NoDup.
Qed.

Lemma all_bytes_length : length all_bytes = 256.
Proof. vm_compute. reflexivity. Qed.

Lemma NoDup_flat_map_disjoint {A B} (f : A -> list B) (l : list A) :
  NoDup l ->
  (forall x, In x l -> NoDup (f x)) ->
  (forall x y z, In x l -> In y l -> In z (f x) -> In z (f y) -> x = y) ->
  NoDup (flat_map f l).
Proof.
  induction 1 as [|x l Hx Hl IH]; intros Hf Hd; cbn [flat_map].
  - constructor.
  - apply NoDup_app.
    + apply Hf. now left.
    + apply IH.
      * intros y Hy. apply Hf. now right.
      * intros y1 y2 z H1 H2. apply Hd; now right.
    + intros z Hz Hz'. apply in_flat_map in Hz' as (y & Hy & Hzy).
      assert (x = y) by (apply (Hd x y z); simpl; auto).
      subst y. contradiction.
Qed.

Lemma NoDup_map_injective_on {A B} (f : A -> B) (l : list A) :
  (forall x y, In x l -> In y l -> f x = f y -> x = y) ->
  NoDup l -> NoDup (map f l).
Proof.
  intros Hinj. induction 1 as [|x l Hx Hl IH]; cbn [map]; constructor.
  - intros Hin. apply in_map_iff in Hin as (y & Hxy & Hy).
    assert (y = x) by (apply Hinj; simpl; auto). subst y. contradiction.
  - apply IH. intros y1 y2 H1 H2. apply Hinj; now right.
Qed.

Lemma strings_of_In (k : nat) (l : bytes) :
  In l (strings_of k) <-> length l = k.
Proof.
  revert l. induction k as [|k IH]; intros l; cbn [strings_of].
  - split.
    + intros [<-|[]]. reflexivity.
    + destruct l; [now left|discriminate].
  - rewrite in_flat_map. split.
    + intros (b & _ & Hl). apply in_map_iff in Hl as (l' & <- & Hl').
      apply IH in Hl'. simpl. now rewrite Hl'.
    + destruct l as [|b l']; [discriminate|]. intros [= Hl'].
      exists b. split; [apply all_bytes_complete|].
      apply in_map, IH, Hl'.
Qed.

Lemma strings_of_length (k : nat) : length (strings_of k) = 256 ^ k.
Proof.
  induction k as [|k IH]; [reflexivity|].
  cbn [strings_of].
  rewrite flat_map_constant_length with (c := 256 ^ k).
  - rewrite all_bytes_length. now rewrite Nat.pow_succ_r'.
  - intros b _. now rewrite length_map.
Qed.

Lemma strings_of_NoDup (k : nat) : NoDup (strings_of k).
Proof.
  induction k as [|k IH]; cbn [strings_of].
  - repeat constructor. intros [].
  - apply NoDup_flat_map_disjoint.
    + apply all_bytes_NoDup.
    + intros b _. apply NoDup_map_injective_on; [|exact IH].
      now intros l1 l2 _ _ [= ->].
    + intros b1 b2 l _ _ H1 H2.
      apply in_map_iff in H1 as (l1 & <- & _).
      apply in_map_iff in H2 as (l2 & [= <- _] & _). reflexivity.
Qed.

(** No function sends the strings of [k] bytes to strings of fewer bytes
    without sending two of them to the same string. *)
Lemma shorter_strings_collide (j k : nat) (f : bytes -> bytes) :
  j < k ->
  (forall l, length l = k -> length (f l) = j) ->
  ~ (forall l1 l2, length l1 = k -> length l2 = k -> f l1 = f l2 -> l1 = l2).
Proof.
  intros Hjk Hlen Hinj.
  assert (HND : NoDup (map f (strings_of k))).
  { apply NoDup_map_injective_on; [|apply strings_of_NoDup].
    intros l1 l2 H1 H2. apply Hinj; now apply strings_of_In. }
  assert (Hincl : incl (map f (strings_of k)) (strings_of j)).
  { intros c Hc. apply in_map_iff in Hc as (l & <- & Hl).
    apply strings_of_In, Hlen. now apply strings_of_In. }
  pose proof (NoDup_incl_length HND Hincl) as Hle.
  rewrite length_map, !strings_of_length in Hle.
  apply (Nat.lt_irrefl (256 ^ j)).
  eapply Nat.lt_le_trans; [|exact Hle].
  apply Nat.pow_lt_mono_r; [repeat constructor|exact Hjk].
Qed.

(** ** Claim about a second key *)

Section TwoKeys.

Context (E : Env) (HE : Env_ok E).
Context (keyA keyB : bytes).
Context (HA : length keyA = 32) (HB : length keyB = 32).
Context (msg nonce : bytes) (Hnonce : length nonce = 24).
Context (sA sB : Signer).
Context (HNewA : New E keyA = Ok sA) (HNewB : New E keyB = Ok sB).
Context (stA stB : State) (HstA : this stA = sA) (HstB : this stB = sB).


End TwoKeys.


Lemma empty_sealed_length (E : Env) (nonce key : bytes) :
  Env_ok E -> length nonce = 24 -> length key = 32 ->
  length (empty_sealed E nonce key) = 16.
Proof.
  intros HE Hn Hk.
  destruct (New_key E key HE Hk) as [s Hs].
  pose proof (New_cipher_ok E key s HE Hk Hs) as Hok.
  destruct (seal_returns _ Hok nonce [] (Version :: nonce) Hn)
    as (c & Hc & Hlen).
  unfold empty_sealed. now rewrite Hs, Hc.
Qed.


(** Over a list of strings a function either sends two different ones to
    the same value or is one-to-one; which of the two can be searched. *)
Lemma collision_or_injective (f : bytes -> bytes) (l : list bytes) :
  (exists x y, In x l /\ In y l /\ x <> y /\ f x = f y) \/
  (forall x y, In x l -> In y l -> f x = f y -> x = y).
Proof.
  induction l as [|a l IH].
  - right. intros x y [].
  - destruct IH as [(x & y & Hx & Hy & Hne & Heq)|Hinj].
    { left. exists x, y. simpl. auto. }
    assert (Hdec : forall y, {f y = f a /\ y <> a} + {~ (f y = f a /\ y <> a)}).
    { intros y.
      destruct (list_eq_dec Byte.byte_eq_dec (f y) (f a)) as [H1|H1];
        destruct (list_eq_dec Byte.byte_eq_dec y a) as [H2|H2];
        (left; now split) || (right; intros [? ?]; contradiction). }
    destruct (Exists_dec (fun y => f y = f a /\ y <> a) l Hdec) as [Hex|Hno].
    + left. apply Exists_exists in Hex as (y & Hy & Heq & Hne).
      exists y, a. simpl. auto.
    + right. rewrite Exists_exists in Hno.
      assert (Ha : forall y, In y l -> f y = f a -> y = a).
      { intros y Hy Heq.
        destruct (list_eq_dec Byte.byte_eq_dec y a) as [|Hne]; [assumption|].
        exfalso. apply Hno. exists y. auto. }
      intros x y [<-|Hx] [<-|Hy] Heq; auto.
      symmetry. now apply Ha.
Qed.

(** In every lawful environment two different 32-byte keys collide: the
    token one of them makes of the empty message, under the all-zero nonce,
    is accepted by [Verify] under the other.  The two keys are found by
    counting, not exhibited: finding them is a search for a collision of
    16-byte tags. *)
Lemma colliding_keys_exist (E : Env) :
  Env_ok E ->
  exists keyA keyB sA sB t,
    length keyA = 32 /\ length keyB = 32 /\ keyA <> keyB /\
    New E keyA = Ok sA /\ New E keyB = Ok sB /\
    fst (Sign E [] (Some nonce0) (fresh sA)) = Done (Ok t) /\
    fst (Verify t (fresh sB)) = Done (Ok []).
Proof.
  intros HE.
  destruct (collision_or_injective (empty_sealed E nonce0) (strings_of 32))
    as [(k1 & k2 & H1 & H2 & Hne & Heq)|Hinj].
  - apply strings_of_In in H1, H2.
    destruct (New_key E k1 HE H1) as [s1 Hs1].
    destruct (New_key E k2 HE H2) as [s2 Hs2].
    destruct (Sign_keyed E HE k1 H1 [] nonce0 eq_refl s1 Hs1 (fresh s1) eq_refl)
      as (c1 & Hc1 & _ & HS).
    pose proof (New_cipher_ok E k2 s2 HE H2 Hs2) as Hok2.
    destruct (seal_returns _ Hok2 nonce0 [] (Version :: nonce0) eq_refl)
      as (c2 & Hc2 & _).
    unfold empty_sealed in Heq. rewrite Hs1, Hs2, Hc1, Hc2 in Heq. subst c2.
    exists k1, k2, s1, s2, ((Version :: nonce0) ++ c1).
    repeat (split; [assumption|]). split; [exact (f_equal fst HS)|].
    rewrite (Verify_token nonce0 c1 (fresh s2) eq_refl). cbn [fst this fresh].
    exact (open_seal _ Hok2 nonce0 [] _ c1 eq_refl Hc2).
  - exfalso.
    apply (shorter_strings_collide 16 32 (empty_sealed E nonce0)).
    + repeat constructor.
    + intros key Hk. now apply empty_sealed_length.
    + intros k1 k2 H1 H2. apply Hinj; now apply strings_of_In.
Qed.

(** ** Tampering: what the framing adds, and what is left to the cipher *)

Lemma flip_bit_length (i : nat) (t : bytes) :
  length (flip_bit i t) = length t.
Proof.
  revert i. induction t as [|b t IH]; intros i; cbn [flip_bit].
  - reflexivity.
  - destruct (i <? 8); cbn [length]; [reflexivity|]. now rewrite IH.
Qed.

Lemma flip_bit_app (i : nat) (l1 l2 : bytes) :
  flip_bit i (l1 ++ l2) =
  if i <? 8 * length l1 then flip_bit i l1 ++ l2
  else l1 ++ flip_bit (i - 8 * length l1) l2.
Proof.
  revert i. induction l1 as [|b l1 IH]; intros i.
  - cbn [app length]. rewrite Nat.mul_0_r.
    destruct (Nat.ltb_spec i 0); [lia|]. now rewrite Nat.sub_0_r.
  - cbn [app flip_bit length].
    destruct (Nat.ltb_spec i 8) as [H8|H8].
    + destruct (Nat.ltb_spec i (8 * S (length l1))); [reflexivity|lia].
    + rewrite IH.
      destruct (Nat.ltb_spec (i - 8) (8 * length l1));
        destruct (Nat.ltb_spec i (8 * S (length l1))); try lia.
      * reflexivity.
      * cbn [app]. do 3 f_equal. lia.
Qed.

Lemma byte_parity_flip (j : nat) (b : byte) :
  j < 8 ->
  Fake.byte_parity (flip_byte j b) = negb (Fake.byte_parity b).
Proof.
  intros Hj.
  assert (Hall : forallb (fun b' =>
            forallb (fun j' =>
              Bool.eqb (Fake.byte_parity (flip_byte j' b'))
                       (negb (Fake.byte_parity b')))
              (seq 0 8)) all_bytes = true)
    by (vm_compute; reflexivity).
  rewrite forallb_forall in Hall.
  specialize (Hall b (all_bytes_complete b)).
  rewrite forallb_forall in Hall.
  apply Bool.eqb_prop, Hall, in_seq. lia.
Qed.

Lemma parity_flip_bit (i : nat) (l : bytes) :
  i < 8 * length l ->
  Fake.parity (flip_bit i l) = negb (Fake.parity l).
Proof.
  revert i. induction l as [|b l IH]; intros i Hi; cbn [length] in Hi.
  - lia.
  - cbn [flip_bit]. destruct (Nat.ltb_spec i 8) as [H8|H8];
      cbn [Fake.parity fold_right]; fold (Fake.parity l).
    + rewrite (byte_parity_flip i b H8). now rewrite negb_xorb_l.
    + fold (Fake.parity (flip_bit (i - 8) l)).
      rewrite IH by lia. now rewrite negb_xorb_r.
Qed.

Lemma flip_bit_changes (i : nat) (t : bytes) :
  i < 8 * length t -> flip_bit i t <> t.
Proof.
  intros Hi Heq. pose proof (parity_flip_bit i t Hi) as H.
  rewrite Heq in H. now destruct (Fake.parity t).
Qed.

(** Every bit of a token reaches the cipher: after one bit is inverted,
    [Verify] still passes the length guard, and what it hands to [Open] is
    not what it handed for the token itself. *)
Lemma tamper_changes_cipher_input (i : nat) (t : Token) (st : State) :
  hdrSize <= length t -> i < 8 * length t ->
  open_input (flip_bit i t) <> open_input t /\
  Verify (flip_bit i t) st =
  (let '(nonce, ae, ad) := open_input (flip_bit i t) in
   (Open (aead (this st)) nonce ae ad, log (CallOpen nonce ae ad) st)).
Proof.
  intros Hlen Hi. split.
  - intros Heq. apply (flip_bit_changes i t Hi).
    unfold open_input in Heq.
    pose proof (f_equal snd Heq) as Had.
    pose proof (f_equal (fun x => snd (fst x)) Heq) as Hae.
    cbn [fst snd] in Had, Hae.
    rewrite <- (firstn_skipn hdrSize (flip_bit i t)), Hae, Had.
    apply firstn_skipn.
  - unfold open_input. apply Verify_long. now rewrite flip_bit_length.
Qed.

Lemma fake_open_split f key nonce ad m tg :
  length nonce = NonceSize -> length tg = Overhead ->
  Fake.open f key nonce (m ++ tg) ad =
  if list_eq_dec Byte.byte_eq_dec tg (Fake.tag f key nonce ad m)
  then Done (Ok m) else Done (Err errOpen).
Proof.
  intros Hn Ht. unfold Fake.open. rewrite Hn, Nat.eqb_refl.
  assert (Hl : length (m ++ tg) - Overhead = length m).
  { rewrite length_app, Ht. lia. }
  rewrite Hl.
  destruct (Nat.ltb_spec (length (m ++ tg)) Overhead) as [Hlt|_].
  { rewrite length_app, Ht in Hlt. lia. }
  rewrite firstn_app, Nat.sub_diag, firstn_all, firstn_O, app_nil_r.
  now rewrite skipn_app, Nat.sub_diag, skipn_all, skipn_O, app_nil_l.
Qed.

(** With the byte-sum fake, inverting the top bit of the first nonce byte
    goes unnoticed: the nonce is summed twice, so the sum moves by 256. *)
Lemma sum_fake_accepts_flipped_bit :
  exists t,
    fst (Sign Fake.env hello (Some nonce0) (fresh signer0)) = Done (Ok t) /\
    flip_bit 15 t <> t /\
    fst (Verify (flip_bit 15 t) (fresh signer0)) = Done (Ok hello).
Proof.
  eexists. split; [vm_compute; reflexivity|].
  split; [vm_compute; discriminate|vm_compute; reflexivity].
Qed.

Lemma sum_fake_misses_tampering : ~ tamper_detected Fake.env.
Proof.
  intros H. destruct sum_fake_accepts_flipped_bit as (t & HS & _ & HV).
  assert (Hl : length t = 46).
  { vm_compute in HS. injection HS as <-. reflexivity. }
  specialize (H key0 hello nonce0 signer0 (fresh signer0) (fresh signer0)
                t 15 eq_refl eq_refl eq_refl eq_refl eq_refl HS).
  rewrite HV in H. rewrite Hl in H. discriminate H. lia.
Qed.

(** With the parity fake every inverted bit is noticed: in header or
    message it inverts the parity the tag records, in the tag it makes the
    tag differ from the one recomputed. *)
Lemma parity_fake_detects_tampering : tamper_detected Fake.parity_env.
Proof.
  intros key msg nonce s st st' t i Hk Hn HNew Hst Hst' HS Hi.
  destruct (Sign_keyed Fake.parity_env (fake_env_of_ok _) key Hk msg nonce Hn
              s HNew st Hst) as (sealed & Hseal & _ & HS').
  rewrite HS' in HS. cbn [fst] in HS. injection HS as <-.
  apply New_Ok in HNew as (a & Ha & ->). cbn [aead] in *.
  cbn [Fake.parity_env Fake.env_of NewX] in Ha.
  rewrite Hk, Nat.eqb_refl in Ha. injection Ha as <-.
  cbn [Fake.cipher_of Seal] in Hseal. unfold Fake.seal in Hseal.
  rewrite Hn, Nat.eqb_refl in Hseal. injection Hseal as <-.
  set (hdr := Version :: nonce) in *.
  set (tag0 := Fake.tag Fake.parity_tagger key nonce hdr msg) in *.
  assert (Hhdr : length hdr = hdrSize) by (unfold hdr; simpl; now rewrite Hn).
  assert (Htag : length tag0 = Overhead) by apply fake_tag_length.
  change (Version :: nonce ++ msg ++ tag0) with (hdr ++ msg ++ tag0) in *.
  rewrite app_assoc in Hi |- *. rewrite flip_bit_app.
  rewrite !length_app, Htag in Hi.
  destruct (Nat.ltb_spec i (8 * length (hdr ++ msg))) as [HA|HB].
  - (* the bit is in the header or the message *)
    pose proof (parity_flip_bit i (hdr ++ msg) HA) as Hpar.
    pose proof (flip_bit_length i (hdr ++ msg)) as Hfl.
    rewrite length_app, Hhdr in Hfl.
    rewrite <- (firstn_skipn hdrSize (flip_bit i (hdr ++ msg))) in Hpar |- *.
    set (ad' := firstn hdrSize (flip_bit i (hdr ++ msg))) in *.
    set (m' := skipn hdrSize (flip_bit i (hdr ++ msg))) in *.
    assert (Had' : length ad' = hdrSize).
    { unfold ad'. rewrite length_firstn. lia. }
    rewrite <- app_assoc, (Verify_split ad' (m' ++ tag0) st' Had').
    rewrite Hst'. cbn [fst aead Fake.cipher_of Open].
    rewrite fake_open_split; trivial.
    2:{ rewrite length_skipn. unfold hdrSize, NonceSize in *. lia. }
    destruct (list_eq_dec _ _ _) as [Heq|_]; [exfalso|reflexivity].
    unfold tag0, Fake.tag, Fake.parity_tagger in Heq. rewrite Hpar in Heq.
    cbn [Overhead repeat] in Heq.
    destruct (Fake.parity key), (Fake.parity (hdr ++ msg)); discriminate.
  - (* the bit is in the tag *)
    rewrite <- app_assoc, (Verify_split hdr _ st' Hhdr).
    rewrite Hst'. cbn [fst aead Fake.cipher_of Open].
    unfold hdr at 1. cbn [skipn].
    rewrite fake_open_split; trivial.
    2:{ now rewrite flip_bit_length. }
    destruct (list_eq_dec _ _ _) as [Heq|_]; [exfalso|reflexivity].
    fold hdr in Heq. fold tag0 in Heq.
    apply (flip_bit_changes _ _) in Heq; [exact Heq|].
    rewrite Htag, length_app. unfold Overhead in *. lia.
Qed.

(** The contract of the cipher leaves tamper detection open: one lawful
    cipher has it, another does not. *)
Lemma tamper_detection_left_to_cipher :
  (exists E, Env_ok E /\ tamper_detected E) /\
  (exists E, Env_ok E /\ ~ tamper_detected E).
Proof.
  split.
  - exists Fake.parity_env. split.
    + apply fake_env_of_ok.
    + apply parity_fake_detects_tampering.
  - exists Fake.env. split.
    + apply fake_env_ok.
    + apply sum_fake_misses_tampering.
Qed.

(** ** The claims at concrete inputs, with the fake collaborators *)

Lemma New_key0 : New Fake.env key0 = Ok signer0.
Proof. reflexivity. Qed.

Lemma round_trip_witness :
  exists s, New Fake.env key0 = Ok s /\
  forall st, this st = s ->
  exists t st',
    Sign Fake.env hello (Some nonce0) st = (Done (Ok t), st') /\
    fst (Verify t st') = Done (Ok hello) /\
    forall st'', this st'' = s -> fst (Verify t st'') = Done (Ok hello).
Proof.
  apply (round_trip Fake.env fake_env_ok key0); reflexivity.
Defined.

Lemma wire_format_witness :
  exists t,
    fst (Sign Fake.env hello (Some nonce0) (fresh signer0)) = Done (Ok t) /\
    length t = 46 /\
    nth_error t 0 = Some Byte.x41 /\
    firstn 24 (skipn 1 t) = nonce0.
Proof.
  apply (wire_format Fake.env fake_env_ok key0 eq_refl hello nonce0 eq_refl
           signer0 New_key0 (fresh signer0) eq_refl).
Defined.

Lemma explicit_nonce_deterministic_witness :
  exists t,
    fst (Sign Fake.env hello (Some nonce0) (fresh signer0)) = Done (Ok t) /\
    fst (Sign Fake.env hello (Some nonce0)
           {| this := signer0; reads := 7; trace := [CallRand 24] |})
    = Done (Ok t) /\
    fst (Sign Fake.env hello (Some nonce0)
           (snd (Sign Fake.env hello (Some nonce0) (fresh signer0))))
    = Done (Ok t).
Proof.
  apply (explicit_nonce_deterministic Fake.env fake_env_ok key0 eq_refl
           hello nonce0 eq_refl signer0 New_key0 (fresh signer0) eq_refl
           {| this := signer0; reads := 7; trace := [CallRand 24] |}).
  reflexivity.
Defined.

Lemma New_bad_key_error_witness :
  New Fake.env (repeat Byte.x00 31) = Err errBadKeyLength /\
  New Fake.env (repeat Byte.x00 31) <> Err ErrKeyLen.
Proof.
  apply (New_bad_key_error Fake.env fake_env_ok (repeat Byte.x00 31)).
  simpl. lia.
Defined.

Lemma short_input_rejection_witness :
  (fst (Verify nonce0 (fresh signer0)) = Done (Err ErrShort)
   <-> length nonce0 < 25) /\
  (length nonce0 < 25 ->
   Verify nonce0 (fresh signer0) = (Done (Err ErrShort), fresh signer0)).
Proof.
  apply (short_input_rejection nonce0 (fresh signer0)).
  simpl. apply fake_cipher_ok.
Defined.

Lemma header_without_tag_witness :
  fst (Verify thirty (fresh signer0)) = Done (Err errOpen) /\
  fst (Verify thirty (fresh signer0)) <> Done (Err ErrShort) /\
  trace (snd (Verify thirty (fresh signer0)))
  = [CallOpen nonce0 hello (Version :: nonce0)].
Proof.
  apply (header_without_tag thirty (fresh signer0)).
  - simpl. apply fake_cipher_ok.
  - simpl. lia.
Defined.

Lemma Sign_with_nonce_succeeds_witness :
  (exists t,
      fst (Sign Fake.env hello (Some nonce0) (fresh signer0)) = Done (Ok t)) /\
  reads (snd (Sign Fake.env hello (Some nonce0) (fresh signer0))) = 0 /\
  trace (snd (Sign Fake.env hello (Some nonce0) (fresh signer0)))
  = [CallSeal nonce0 hello (Version :: nonce0)] /\
  (forall msg' nonce' st' e,
      fst (Sign Fake.env msg' nonce' st') = Done (Err e) ->
      nonce' = None /\
      snd (rand_Read Fake.env (reads st') NonceSize) = Some e).
Proof.
  apply (Sign_with_nonce_succeeds Fake.env fake_env_ok key0 eq_refl
           hello nonce0 eq_refl signer0 New_key0 (fresh signer0) eq_refl).
Defined.



Lemma signer_frame_witness :
  this (snd (Sign Fake.env hello None (fresh signer0))) = signer0 /\
  this (snd (Verify thirty (fresh signer0))) = signer0 /\
  (forall q, ready signer0 -> length q = 24 ->
     exists s', assemble signer0 q = Done s' /\
       aead s' = aead signer0 /\ n s' = 25 /\ p s' = Version :: q /\
       n (this (snd (Sign Fake.env hello (Some q) (fresh signer0)))) = 0 /\
       p (this (snd (Sign Fake.env hello (Some q) (fresh signer0))))
       = p signer0).
Proof.
  exact (signer_frame Fake.env hello None thirty (fresh signer0)).
Defined.

(** * Further properties of the package *)

(** ** The scratch buffer *)

Lemma firstn_min_length {A} (k : nat) (l : list A) :
  firstn (Nat.min k (length l)) l = firstn k l.
Proof.
  destruct (Nat.le_ge_cases k (length l)) as [H|H].
  - now rewrite Nat.min_l.
  - rewrite Nat.min_r by assumption.
    now rewrite firstn_all, firstn_all2.
Qed.

(** X1: [put] appends to the filled part of the buffer as many bytes of its
    argument as still fit and drops the rest: the array keeps its length,
    [n] moves to the end of what was written and never past the array, the
    bytes before and after the written ones stay, and the cipher is not
    touched.  It panics only from a state in which [n] is already past the
    array. *)
Theorem put_appends_what_fits (q : bytes) (s : Signer) :
  (n s <= length (p s) ->
   exists s',
     put q s = Done s' /\
     aead s' = aead s /\
     length (p s') = length (p s) /\
     n s' = Nat.min (length (p s)) (n s + length q) /\
     firstn (n s') (p s')
     = firstn (n s) (p s) ++ firstn (length (p s) - n s) q /\
     skipn (n s') (p s') = skipn (n s') (p s)) /\
  (length (p s) < n s -> put q s = Panic).
Proof.
  split.
  - intros Hn. rewrite (put_ready q s Hn). eexists. split; [reflexivity|].
    cbn [aead n p].
    set (k := Nat.min (length (p s) - n s) (length q)).
    assert (Hk : k <= length (p s) - n s) by apply Nat.le_min_l.
    assert (Hkq : k <= length q) by apply Nat.le_min_r.
    assert (Hf : length (firstn (n s) (p s)) = n s)
      by (rewrite length_firstn; lia).
    assert (Hfq : length (firstn k q) = k)
      by (rewrite length_firstn; lia).
    assert (Hq : firstn k q = firstn (length (p s) - n s) q)
      by apply firstn_min_length.
    split; [reflexivity|]. split; [|split; [|split]].
    + rewrite !length_app, Hf, Hfq, !length_skipn. lia.
    + unfold k. lia.
    + rewrite app_assoc.
      replace (n s + k) with (length (firstn (n s) (p s) ++ firstn k q))
        by (rewrite length_app; lia).
      rewrite firstn_app, Nat.sub_diag, firstn_all, firstn_O, app_nil_r.
      now rewrite Hq.
    + rewrite app_assoc.
      replace (n s + k) with (length (firstn (n s) (p s) ++ firstn k q)) at 1
        by (rewrite length_app; lia).
      rewrite skipn_app, Nat.sub_diag, skipn_all, skipn_O, app_nil_l.
      rewrite skipn_skipn. f_equal. lia.
  - intros Hn. unfold put.
    destruct (Nat.leb_spec (n s) (length (p s))); [lia|reflexivity].
Qed.

(** The header assembly for a nonce of any length. *)
Lemma assemble_any s nonce :
  ready s ->
  exists rest,
    assemble s nonce =
    Done {| aead := s.(aead);
            n := 1 + Nat.min 24 (length nonce);
            p := (Version :: firstn 24 nonce) ++ rest |}.
Proof.
  intros [Hn Hp]. destruct s as [a k q]; simpl in *. subst k.
  destruct q as [|b q]; [discriminate|].
  injection Hp as Hq.
  unfold assemble. rewrite put_ready by (simpl; lia). simpl.
  rewrite put_ready by (simpl; lia). simpl.
  rewrite Nat.min_0_r. cbn [firstn skipn app Nat.add].
  rewrite Nat.sub_0_r, Hq. unfold NonceSize.
  rewrite firstn_min_length.
  eexists. reflexivity.
Qed.

Lemma sign_any_nonce (s : Signer) (msg nonce : bytes) (st : State) :
  ready s ->
  sign s msg nonce st =
  (match Seal (aead s) nonce msg (Version :: firstn 24 nonce) with
   | Done sealed => Done ((Version :: firstn 24 nonce) ++ sealed)
   | Panic => Panic
   end,
   log (CallSeal nonce msg (Version :: firstn 24 nonce)) st).
Proof.
  intros Hr. unfold sign, bind, lift, call_Seal, ret.
  destruct (assemble_any s nonce Hr) as (rest & ->).
  cbn [aead n p].
  assert (Hh : firstn (1 + Nat.min 24 (length nonce))
                 ((Version :: firstn 24 nonce) ++ rest)
               = Version :: firstn 24 nonce).
  { replace (1 + Nat.min 24 (length nonce))
      with (length (Version :: firstn 24 nonce))
      by (cbn [length]; now rewrite length_firstn).
    now rewrite firstn_app, Nat.sub_diag, firstn_all, firstn_O, app_nil_r. }
  rewrite Hh. now destruct (Seal _ _ _ _).
Qed.

(** X2: [Sign] does not check the length of a nonce it is given: for a
    nonce of any length, the empty non-nil one included, it reads nothing
    from the random source, writes the version byte and the first 24 bytes
    of the nonce (all of it when it is shorter) as header, and calls [Seal]
    with the whole nonce; the token, or the panic, is what [Seal] gives. *)
Theorem Sign_any_nonce (E : Env) (msg nonce : bytes) (st : State) :
  ready (this st) ->
  Sign E msg (Some nonce) st =
  (match Seal (aead (this st)) nonce msg (Version :: firstn 24 nonce) with
   | Done sealed => Done (Ok ((Version :: firstn 24 nonce) ++ sealed))
   | Panic => Panic
   end,
   log (CallSeal nonce msg (Version :: firstn 24 nonce)) st).
Proof.
  intros Hr. unfold Sign, bind, deref, ret.
  rewrite (sign_any_nonce (this st) msg nonce st Hr).
  now destruct (Seal _ _ _ _).
Qed.

(** ** [Sign] with a nil nonce *)

Lemma Sign_nil (E : Env) (msg : bytes) (st : State) :
  Sign E msg None st =
  let st1 := {| this := this st; reads := S (reads st);
                trace := trace st ++ [CallRand NonceSize] |} in
  match rand_Read E (reads st) NonceSize with
  | (_, Some err) => (Done (Err err), st1)
  | (nonce, None) =>
      match sign (this st) msg nonce st1 with
      | (Done t, st2) => (Done (Ok t), st2)
      | (Panic, st2) => (Panic, st2)
      end
  end.
Proof.
  unfold Sign, bind, mknonce, call_rand, deref, ret. cbn [this].
  destruct (rand_Read E (reads st) NonceSize) as [nonce [err|]];
    [reflexivity|].
  now destruct (sign _ _ _ _) as [[t|] st2].
Qed.

Lemma Sign_nil_keyed (E : Env) (key msg nonce : bytes) (s : Signer)
    (st : State) :
  Env_ok E -> length key = 32 -> New E key = Ok s -> this st = s ->
  rand_Read E (reads st) NonceSize = (nonce, None) ->
  length nonce = 24 ->
  exists sealed,
    Seal (aead s) nonce msg (Version :: nonce) = Done sealed /\
    length sealed = length msg + 16 /\
    Sign E msg None st =
    (Done (Ok ((Version :: nonce) ++ sealed)),
     {| this := s; reads := S (reads st);
        trace := (trace st ++ [CallRand 24])
                 ++ [CallSeal nonce msg (Version :: nonce)] |}).
Proof.
  intros HE Hk HNew Hst Hr Hn.
  pose proof (New_cipher_ok E key s HE Hk HNew) as Hok.
  pose proof (New_ready E key s HNew) as Hrd.
  destruct (seal_returns _ Hok nonce msg (Version :: nonce) Hn)
    as (sealed & Hseal & Hlen).
  exists sealed. split; [exact Hseal|]. split; [exact Hlen|].
  rewrite Sign_nil. cbv zeta. rewrite Hr, Hst.
  rewrite (sign_ready s msg nonce _ Hrd Hn), Hseal. reflexivity.
Qed.

Lemma app_inj_length {A} (l1 l1' l2 l2' : list A) :
  length l1 = length l1' -> l1 ++ l2 = l1' ++ l2' -> l1 = l1' /\ l2 = l2'.
Proof.
  revert l1'. induction l1 as [|a l1 IH]; intros [|a' l1'] Hl H;
    try discriminate.
  - now split.
  - injection Hl as Hl. injection H as -> H.
    destruct (IH l1' Hl H) as [-> ->]. now split.
Qed.

Section MoreKeyed.

Context (E : Env) (HE : Env_ok E).
Context (key : bytes) (Hkey : length key = 32).
Context (s : Signer) (HNew : New E key = Ok s).
Context (st : State) (Hst : this st = s).

(** X4: with a nil nonce and a random source that delivers, [Sign] reads
    24 bytes once, uses them as nonce, and returns the token made of the
    version byte, those 24 bytes and the sealed message, 25 + len(message) +
    16 bytes in all; [Verify] on it returns the message. *)
Theorem Sign_nil_nonce_round_trip (msg : bytes) :
  Rand_ok E ->
  snd (rand_Read E (reads st) NonceSize) = None ->
  exists nonce sealed st',
    nonce = fst (rand_Read E (reads st) NonceSize) /\
    length nonce = 24 /\
    Sign E msg None st = (Done (Ok ((Version :: nonce) ++ sealed)), st') /\
    length ((Version :: nonce) ++ sealed) = 25 + length msg + 16 /\
    this st' = s /\
    reads st' = S (reads st) /\
    trace st'
    = trace st ++ [CallRand 24; CallSeal nonce msg (Version :: nonce)] /\
    fst (Verify ((Version :: nonce) ++ sealed) st') = Done (Ok msg).
Proof using E HE key Hkey s HNew st Hst.
  intros HR Hnone.
  destruct (rand_Read E (reads st) NonceSize) as [nonce o] eqn:Hr.
  cbn [snd] in Hnone. subst o.
  assert (Hn : length nonce = 24).
  { pose proof (HR (reads st) NonceSize) as H. now rewrite Hr in H. }
  destruct (Sign_nil_keyed E key msg nonce s st HE Hkey HNew Hst Hr Hn)
    as (sealed & Hseal & Hlen & HS).
  pose proof (New_cipher_ok E key s HE Hkey HNew) as Hok.
  exists nonce, sealed. eexists. split; [reflexivity|]. split; [exact Hn|].
  split; [exact HS|]. cbn [this reads trace].
  split; [|split; [reflexivity|split; [reflexivity|split]]].
  - rewrite length_app. cbn [length]. lia.
  - now rewrite <- app_assoc.
  - rewrite (Verify_token nonce sealed _ Hn). cbn [fst this].
    exact (open_seal _ Hok nonce msg _ sealed Hn Hseal).
Qed.

(** X5: two calls of [Sign] with a nil nonce, one right after the other on
    the same message, take two successive reads from the random source; the
    two tokens are equal exactly when the two reads gave the same bytes. *)
Theorem nil_nonce_tokens_differ_with_nonces (msg n1 n2 : bytes) :
  length n1 = 24 -> length n2 = 24 ->
  rand_Read E (reads st) NonceSize = (n1, None) ->
  rand_Read E (S (reads st)) NonceSize = (n2, None) ->
  exists t1 t2,
    fst (Sign E msg None st) = Done (Ok t1) /\
    fst (Sign E msg None (snd (Sign E msg None st))) = Done (Ok t2) /\
    (t1 = t2 <-> n1 = n2).
Proof using E HE key Hkey s HNew st Hst.
  intros H1 H2 Hr1 Hr2.
  destruct (Sign_nil_keyed E key msg n1 s st HE Hkey HNew Hst Hr1 H1)
    as (c1 & Hc1 & _ & HS1).
  rewrite HS1. cbn [fst snd].
  match goal with
  | |- context [Sign E msg None ?st1] =>
      destruct (Sign_nil_keyed E key msg n2 s st1 HE Hkey HNew eq_refl Hr2 H2)
        as (c2 & Hc2 & _ & HS2)
  end.
  rewrite HS2. cbn [fst].
  eexists. eexists. split; [reflexivity|]. split; [reflexivity|].
  split.
  - intros Heq.
    assert (Hl : length (Version :: n1) = length (Version :: n2))
      by (cbn [length]; congruence).
    destruct (app_inj_length _ _ _ _ Hl Heq) as [Hh _]. now injection Hh.
  - intros <-. congruence.
Qed.

(** X6: under one key, [Sign] with a supplied 24-byte nonce is one-to-one:
    two calls that return the same token were given the same nonce and the
    same message. *)
Theorem Sign_injective (msg1 msg2 n1 n2 : bytes) (st2 : State) (t : Token) :
  this st2 = s -> length n1 = 24 -> length n2 = 24 ->
  fst (Sign E msg1 (Some n1) st) = Done (Ok t) ->
  fst (Sign E msg2 (Some n2) st2) = Done (Ok t) ->
  n1 = n2 /\ msg1 = msg2.
Proof using E HE key Hkey s HNew st Hst.
  intros Hst2 H1 H2 HS1 HS2.
  destruct (Sign_keyed E HE key Hkey msg1 n1 H1 s HNew st Hst)
    as (c1 & Hc1 & _ & HS1').
  destruct (Sign_keyed E HE key Hkey msg2 n2 H2 s HNew st2 Hst2)
    as (c2 & Hc2 & _ & HS2').
  rewrite HS1' in HS1. rewrite HS2' in HS2. cbn [fst] in HS1, HS2.
  injection HS1 as <-. injection HS2 as Heq.
  assert (Hl : length n2 = length n1) by congruence.
  destruct (app_inj_length _ _ _ _ Hl Heq) as [-> ->].
  split; [reflexivity|].
  pose proof (New_cipher_ok E key s HE Hkey HNew) as Hok.
  pose proof (open_seal _ Hok n1 msg1 _ c1 H1 Hc1) as O1.
  pose proof (open_seal _ Hok n1 msg2 _ c1 H1 Hc2) as O2.
  congruence.
Qed.

(** X9: [Verify] returns a message only for inputs of at least 41 bytes,
    header and tag, and the bound is met: for every 24-byte nonce there is
    an input of exactly 41 bytes on which [Verify] returns the empty
    message. *)
Theorem Verify_accepts_from_41_bytes :
  (forall (c : Token) (m : bytes),
     fst (Verify c st) = Done (Ok m) -> 41 <= length c) /\
  (forall nonce : bytes, length nonce = 24 ->
     exists c, length c = 41 /\ fst (Verify c st) = Done (Ok [])).
Proof using E HE key Hkey s HNew st Hst.
  pose proof (New_cipher_ok E key s HE Hkey HNew) as Hok.
  split.
  - intros c m H.
    destruct (Nat.lt_ge_cases (length c) 25) as [Hlt|Hge].
    { rewrite (Verify_short c st Hlt) in H. discriminate. }
    destruct (Nat.lt_ge_cases (length c) 41) as [Hlt|Hge']; [|exact Hge'].
    rewrite (Verify_long c st Hge), Hst in H. cbn [fst] in H.
    rewrite (open_short _ Hok) in H; [discriminate| |].
    + now apply Verify_nonce_size.
    + rewrite length_skipn. unfold hdrSize, NonceSize, Overhead. lia.
  - intros nonce Hn.
    destruct (seal_returns _ Hok nonce [] (Version :: nonce) Hn)
      as (sealed & Hseal & Hlen).
    exists ((Version :: nonce) ++ sealed). split.
    + rewrite length_app. cbn [length] in *. unfold Overhead in Hlen. lia.
    + rewrite (Verify_token nonce sealed st Hn), Hst. cbn [fst].
      exact (open_seal _ Hok nonce [] _ sealed Hn Hseal).
Qed.

(** X10: [Verify] does not compare the first byte with the version: for
    every byte [v], every 24-byte nonce and every message there is an input
    starting with [v] and carrying that nonce on which [Verify] returns the
    message, namely the message sealed with [v] and the nonce as additional
    data. *)
Theorem Verify_accepts_any_version (v : byte) (nonce msg : bytes) :
  length nonce = 24 ->
  exists sealed,
    Seal (aead s) nonce msg (v :: nonce) = Done sealed /\
    fst (Verify ((v :: nonce) ++ sealed) st) = Done (Ok msg).
Proof using E HE key Hkey s HNew st Hst.
  intros Hn.
  pose proof (New_cipher_ok E key s HE Hkey HNew) as Hok.
  destruct (seal_returns _ Hok nonce msg (v :: nonce) Hn)
    as (sealed & Hseal & _).
  exists sealed. split; [exact Hseal|].
  rewrite (Verify_split (v :: nonce) sealed st).
  - cbn [fst skipn]. rewrite Hst.
    exact (open_seal _ Hok nonce msg _ sealed Hn Hseal).
  - cbn [length]. now rewrite Hn.
Qed.

End MoreKeyed.

(** ** [Verify] on arbitrary input *)

(** X7: on an input of at least 25 bytes [Verify] gives all of it to the
    cipher, split at fixed offsets: bytes 1 to 24 as nonce, always 24 of
    them, bytes 0 to 24 as additional data, and everything from byte 25 on
    as ciphertext; [Verify] returns what [Open] returns. *)
Theorem Verify_hands_over_whole_input (c : Token) (st : State) :
  25 <= length c ->
  exists v nonce ct,
    c = (v :: nonce) ++ ct /\
    length nonce = 24 /\
    Verify c st =
    (Open (aead (this st)) nonce ct (v :: nonce),
     log (CallOpen nonce ct (v :: nonce)) st).
Proof.
  intros Hc.
  assert (Hl : length (firstn hdrSize c) = hdrSize)
    by (rewrite length_firstn; unfold hdrSize, NonceSize in *; lia).
  destruct (firstn hdrSize c) as [|v nonce] eqn:Had; [discriminate|].
  exists v, nonce, (skipn hdrSize c).
  assert (Hsplit : c = (v :: nonce) ++ skipn hdrSize c).
  { rewrite <- Had. symmetry. apply firstn_skipn. }
  split; [exact Hsplit|]. split.
  - now injection Hl.
  - rewrite Hsplit at 1. now rewrite (Verify_split _ _ st Hl).
Qed.

(** X8: [Verify] never panics, whatever bytes it is given: it returns a
    message or one of two errors, [ErrShort] or the authentication error of
    the cipher, and it reads nothing from the random source. *)
Theorem Verify_never_panics (c : Token) (st : State) :
  AEAD_ok (aead (this st)) ->
  exists r,
    fst (Verify c st) = Done r /\
    (forall e, r = Err e -> e = ErrShort \/ e = errOpen) /\
    reads (snd (Verify c st)) = reads st.
Proof.
  intros Hok.
  destruct (Nat.lt_ge_cases (length c) hdrSize) as [Hlt|Hge].
  - rewrite (Verify_short c st Hlt). eexists. split; [reflexivity|].
    split; [|reflexivity]. intros e [= <-]. now left.
  - rewrite (Verify_long c st Hge). cbn [fst snd].
    destruct (open_returns _ Hok _ (skipn hdrSize c) (firstn hdrSize c)
                (Verify_nonce_size c Hge)) as [r Hr].
    exists r. split; [exact Hr|]. split; [|reflexivity].
    intros e ->. right. exact (open_error _ Hok _ _ _ _ Hr).
Qed.

(** ** Calls in sequence *)

Lemma exec_this (E : Env) (o : Op) (st : State) :
  this (exec E o st) = this st.
Proof. destruct o; [apply Sign_this|apply Verify_this]. Qed.

Lemma run_this (E : Env) (ops : list Op) (st : State) :
  this (run E ops st) = this st.
Proof.
  revert st. induction ops as [|o ops IH]; intros st; [reflexivity|].
  cbn [run fold_left]. fold (run E ops (exec E o st)).
  now rewrite IH, exec_this.
Qed.

Lemma exec_reads (E : Env) (o : Op) (st : State) :
  reads (exec E o st) = reads st + nil_signs [o].
Proof.
  destruct o as [msg [nonce|]|c]; cbn [exec nil_signs filter length].
  - unfold Sign, bind, deref, ret, sign, lift, call_Seal.
    destruct (assemble _ _) as [s'|]; cbn; [|lia].
    destruct (Seal _ _ _ _); cbn; lia.
  - rewrite Sign_nil. cbv zeta.
    destruct (rand_Read E (reads st) NonceSize) as [nonce [err|]];
      cbn [snd reads]; [lia|].
    unfold sign, bind, lift, call_Seal, ret.
    destruct (assemble _ _) as [s'|]; cbn; [|lia].
    destruct (Seal _ _ _ _); cbn; lia.
  - unfold Verify, bind, deref, call_Open, ret.
    destruct (_ <? _); cbn; lia.
Qed.

(** X12: over any sequence of calls on a Signer, the random source is read
    exactly once for each [Sign] with a nil nonce, whether that call
    returned a token, an error or panicked, and never for a [Sign] with a
    nonce or for a [Verify]. *)
Theorem reads_count_nil_signs (E : Env) (ops : list Op) (st : State) :
  reads (run E ops st) = reads st + nil_signs ops.
Proof.
  revert st. induction ops as [|o ops IH]; intros st.
  - cbn. lia.
  - cbn [run fold_left]. fold (run E ops (exec E o st)).
    rewrite IH, exec_reads.
    change (o :: ops) with ([o] ++ ops).
    unfold nil_signs. rewrite filter_app, length_app. lia.
Qed.

(** X11: a Signer does not wear out.  After any sequence of calls, with
    whatever inputs and results, the Signer is as [New] returned it, [Sign]
    with a 24-byte nonce still returns a token, and after any further
    sequence of calls [Verify] still returns the message for that token. *)
Theorem tokens_outlive_calls (E : Env) (key : bytes) (s : Signer)
    (ops ops' : list Op) (msg nonce : bytes) :
  Env_ok E -> length key = 32 -> New E key = Ok s -> length nonce = 24 ->
  this (run E ops (fresh s)) = s /\
  exists t,
    fst (Sign E msg (Some nonce) (run E ops (fresh s))) = Done (Ok t) /\
    fst (Verify t
           (run E ops' (snd (Sign E msg (Some nonce) (run E ops (fresh s))))))
    = Done (Ok msg).
Proof.
  intros HE Hk HNew Hn.
  assert (H0 : this (run E ops (fresh s)) = s) by apply run_this.
  split; [exact H0|].
  destruct (Sign_keyed E HE key Hk msg nonce Hn s HNew _ H0)
    as (sealed & Hseal & _ & HS).
  exists ((Version :: nonce) ++ sealed). rewrite HS.
  split; [reflexivity|]. cbn [snd].
  rewrite (Verify_token nonce sealed _ Hn). cbn [fst].
  rewrite run_this. cbn [log this]. rewrite H0.
  pose proof (New_cipher_ok E key s HE Hk HNew) as Hok.
  exact (open_seal _ Hok nonce msg _ sealed Hn Hseal).
Qed.

(** ** The further properties at concrete inputs *)

Lemma fake_rand_ok : Rand_ok Fake.env.
Proof. intros i k. apply repeat_length. Qed.

Lemma counting_env_ok : Env_ok counting_env.
Proof.
  constructor.
  - apply (NewX_key Fake.env fake_env_ok).
  - apply (NewX_bad Fake.env fake_env_ok).
Qed.

Lemma put_appends_what_fits_witness :
  exists s',
    put nonce30 signer0 = Done s' /\
    aead s' = aead signer0 /\
    length (p s') = length (p signer0) /\
    n s' = Nat.min (length (p signer0)) (n signer0 + length nonce30) /\
    firstn (n s') (p s')
    = firstn (n signer0) (p signer0)
      ++ firstn (length (p signer0) - n signer0) nonce30 /\
    skipn (n s') (p s') = skipn (n s') (p signer0).
Proof.
  destruct (put_appends_what_fits nonce30 signer0) as [H _].
  apply H. simpl. lia.
Defined.

Lemma Sign_any_nonce_witness :
  Sign Fake.env hello (Some nonce30) (fresh signer0) =
  (match Seal (aead signer0) nonce30 hello (Version :: firstn 24 nonce30) with
   | Done sealed => Done (Ok ((Version :: firstn 24 nonce30) ++ sealed))
   | Panic => Panic
   end,
   log (CallSeal nonce30 hello (Version :: firstn 24 nonce30))
     (fresh signer0)).
Proof.
  apply (Sign_any_nonce Fake.env hello nonce30 (fresh signer0)).
  split; reflexivity.
Defined.

Lemma Sign_nil_nonce_round_trip_witness :
  exists nonce sealed st',
    nonce = fst (rand_Read Fake.env 0 NonceSize) /\
    length nonce = 24 /\
    Sign Fake.env hello None (fresh signer0)
    = (Done (Ok ((Version :: nonce) ++ sealed)), st') /\
    length ((Version :: nonce) ++ sealed) = 25 + length hello + 16 /\
    this st' = signer0 /\
    reads st' = 1 /\
    trace st' = [CallRand 24; CallSeal nonce hello (Version :: nonce)] /\
    fst (Verify ((Version :: nonce) ++ sealed) st') = Done (Ok hello).
Proof.
  apply (Sign_nil_nonce_round_trip Fake.env fake_env_ok key0 eq_refl
           signer0 eq_refl (fresh signer0) eq_refl hello).
  - exact fake_rand_ok.
  - reflexivity.
Defined.

Lemma nil_nonce_tokens_differ_with_nonces_witness :
  exists t1 t2,
    fst (Sign counting_env hello None (fresh signer0)) = Done (Ok t1) /\
    fst (Sign counting_env hello None
           (snd (Sign counting_env hello None (fresh signer0))))
    = Done (Ok t2) /\
    (t1 = t2 <-> repeat Byte.x00 24 = repeat Byte.x01 24).
Proof.
  apply (nil_nonce_tokens_differ_with_nonces counting_env counting_env_ok
           key0 eq_refl signer0 eq_refl (fresh signer0) eq_refl hello
           (repeat Byte.x00 24) (repeat Byte.x01 24));
    reflexivity.
Defined.

Lemma Sign_injective_witness : nonce0 = nonce0 /\ hello = hello.
Proof.
  apply (Sign_injective Fake.env fake_env_ok key0 eq_refl signer0 eq_refl
           (fresh signer0) eq_refl hello hello nonce0 nonce0
           {| this := signer0; reads := 3; trace := [] |}
           ((Version :: nonce0) ++ hello
            ++ Fake.tag Fake.sum_tagger key0 nonce0 (Version :: nonce0) hello));
    reflexivity.
Defined.

Lemma Verify_hands_over_whole_input_witness :
  exists v nonce ct,
    thirty = (v :: nonce) ++ ct /\
    length nonce = 24 /\
    Verify thirty (fresh signer0) =
    (Open (aead signer0) nonce ct (v :: nonce),
     log (CallOpen nonce ct (v :: nonce)) (fresh signer0)).
Proof.
  apply (Verify_hands_over_whole_input thirty (fresh signer0)).
  simpl. lia.
Defined.

Lemma Verify_never_panics_witness :
  exists r,
    fst (Verify thirty (fresh signer0)) = Done r /\
    (forall e, r = Err e -> e = ErrShort \/ e = errOpen) /\
    reads (snd (Verify thirty (fresh signer0))) = 0.
Proof.
  apply (Verify_never_panics thirty (fresh signer0)).
  simpl. apply fake_cipher_ok.
Defined.

Lemma Verify_accepts_from_41_bytes_witness :
  (forall (c : Token) (m : bytes),
     fst (Verify c (fresh signer0)) = Done (Ok m) -> 41 <= length c) /\
  (forall nonce : bytes, length nonce = 24 ->
     exists c, length c = 41 /\ fst (Verify c (fresh signer0)) = Done (Ok [])).
Proof.
  apply (Verify_accepts_from_41_bytes Fake.env fake_env_ok key0 eq_refl
           signer0 eq_refl (fresh signer0) eq_refl).
Defined.

Lemma Verify_accepts_any_version_witness :
  exists sealed,
    Seal (aead signer0) nonce1 hello (Byte.x42 :: nonce1) = Done sealed /\
    fst (Verify ((Byte.x42 :: nonce1) ++ sealed) (fresh signer0))
    = Done (Ok hello).
Proof.
  apply (Verify_accepts_any_version Fake.env fake_env_ok key0 eq_refl
           signer0 eq_refl (fresh signer0) eq_refl Byte.x42 nonce1 hello).
  reflexivity.
Defined.

Lemma tokens_outlive_calls_witness :
  this (run Fake.env [OpVerify thirty; OpSign hello None] (fresh signer0))
  = signer0 /\
  exists t,
    fst (Sign Fake.env hello (Some nonce1)
           (run Fake.env [OpVerify thirty; OpSign hello None]
              (fresh signer0)))
    = Done (Ok t) /\
    fst (Verify t
           (run Fake.env [OpVerify nonce0; OpSign hello (Some nonce30)]
              (snd (Sign Fake.env hello (Some nonce1)
                      (run Fake.env [OpVerify thirty; OpSign hello None]
                         (fresh signer0))))))
    = Done (Ok hello).
Proof.
  apply (tokens_outlive_calls Fake.env key0 signer0
           [OpVerify thirty; OpSign hello None]
           [OpVerify nonce0; OpSign hello (Some nonce30)] hello nonce1
           fake_env_ok eq_refl eq_refl eq_refl).
Defined.
